(** * Scope-attribute and action-set resolvers of the access-control service

    A shallow embedding of [pkg/services/accesscontrol/resolvers.go]: the
    resolver registry [Resolvers], the cache-aware scope mutator produced by
    [GetScopeAttributeMutator], the cache key [getScopeCacheKey] and the action
    expansion produced by [GetActionSetResolver].

    Go values are embedded as follows.
    - [int64] is [Z] restricted by [int64_range]; no arithmetic is done on
      organization ids, they are only formatted.
    - [time.Duration] and [UnixNano] instants are [Z], counted in nanoseconds.
    - a [[]string] is a [list string] (a nil slice and an empty slice are both
      the empty list: the code never tells them apart).
    - [map[string]ScopeAttributeResolver] is a [gmap string _].
    - an [error] is [option error]: [None] is Go's [nil].
    - the effects of one call (debug lines, resolver calls, cache writes) are
      threaded through a state monad whose state carries the registry, the
      world outside of it and the trace of what was done. *)

From Stdlib Require Import Ascii.
From stdpp Require Import gmap strings list pretty.

Local Open Scope Z_scope.

(** ** The parts of Go that the file leans on *)

Module time.
(** [time.Duration] counts nanoseconds. *)
Definition Duration : Type := Z.
Definition Nanosecond : Duration := 1.
Definition Microsecond : Duration := 1000 * Nanosecond.
Definition Millisecond : Duration := 1000 * Microsecond.
Definition Second : Duration := 1000 * Millisecond.
Definition Minute : Duration := 60 * Second.
End time.

Definition int64_range (z : Z) : Prop := - 2 ^ 63 <= z < 2 ^ 63.

(** An [error] value: either made by [errors.New], or made by [fmt.Errorf]
    with a [%w] verb, in which case it keeps the error it wraps. *)
Inductive error : Type :=
| errorString (text : string)
| wrapError (msg : string) (err : error).

Definition Error (e : error) : string :=
  match e with
  | errorString text => text
  | wrapError msg _ => msg
  end.

Definition Unwrap (e : error) : option error :=
  match e with
  | errorString _ => None
  | wrapError _ err => Some err
  end.

(** [%v] on an [int64]: the decimal digits, with a leading minus sign for a
    negative number. *)
Definition formatInt64 (z : Z) : string := pretty z.

(** ** Constants *)

Definition ttl : time.Duration := 30 * time.Second.
Definition cleanInterval : time.Duration := 2 * time.Minute.

(** [getScopeCacheKey]: [fmt.Sprintf("%s-%v", scope, orgID)]. *)
Definition getScopeCacheKey (orgID : Z) (scope : string) : string :=
  scope +:+ "-" +:+ formatInt64 orgID.

(** [fmt.Errorf("could not resolve %v: %w", scope, err)]. *)
Definition could_not_resolve (scope : string) (err : error) : error :=
  wrapError ("could not resolve " +:+ scope +:+ ": " +:+ Error err) err.

(** ** The cache *)

(** Modelled from the spec: [localcache.CacheService] is not part of the
    sources at hand.  It is a key-value store with per-entry expiry: [Set]
    stores a value that expires a given duration after the instant of the
    write, [Get] finds a key only while its entry is present and not expired
    (an entry is expired once the clock is past its expiration).
    The periodic eviction of expired entries changes nothing that [Get] can
    see and is left out.  The registry only ever stores [[]string] values, so
    the type assertion made on a hit cannot fail. *)
Module localcache.
Record Item : Type := mkItem { Object : list string; Expiration : Z }.

Record CacheService : Type := mkCache {
  items : gmap string Item;
  defaultExpiration : time.Duration;
  cleanupInterval : time.Duration
}.

Definition New (defaultExpiration cleanupInterval : time.Duration) : CacheService :=
  mkCache ∅ defaultExpiration cleanupInterval.

Definition Expired (now : Z) (it : Item) : bool := Expiration it <? now.

Definition Get (c : CacheService) (k : string) (now : Z) : option (list string) :=
  match items c !! k with
  | Some it => if Expired now it then None else Some (Object it)
  | None => None
  end.

Definition Set_ (c : CacheService) (k : string) (x : list string)
    (d : time.Duration) (now : Z) : CacheService :=
  mkCache (<[k := mkItem x (now + d)]> (items c))
          (defaultExpiration c) (cleanupInterval c).
End localcache.

(** ** The registry and its operations *)

Section Resolvers.

(** [context.Context], the logger, and [Permission] are opaque here. *)
Context {ctxT Logger Permission : Type}.

(** Everything outside the registry that a resolver may read or change
    (storage, counters), together with the wall clock. *)
Context {World : Type}.
Variable now : World → Z.

(** Declared in other files of the package. *)
Variable ScopePrefix : string → string.
Variable ErrResolverNotFound : error.

(** [ScopeAttributeResolver]: the interface with the one method [Resolve]. *)
Record ScopeAttributeResolver : Type := mkScopeAttributeResolver {
  Resolve : ctxT → Z → string → World → (list string * option error) * World
}.

(** [ScopeAttributeResolverFunc] adapts a function to the interface. *)
Definition ScopeAttributeResolverFunc
    (f : ctxT → Z → string → World → (list string * option error) * World)
    : ScopeAttributeResolver :=
  mkScopeAttributeResolver f.

Record ActionResolver : Type := mkActionResolver {
  ResolveAction : string → World → list string * World;
  ResolveActionSet : string → World → list string * World;
  ExpandActionSets : list Permission → World → list Permission * World
}.

(** The registry.  Its values here are the ones [NewResolvers] and the
    methods below lead to: the map is allocated and the logger is a usable
    one, so that a write to the map and a debug line always go through. *)
Record Resolvers : Type := mkResolvers {
  log : Logger;
  cache : localcache.CacheService;
  attributeResolvers : gmap string ScopeAttributeResolver;
  actionResolver : option ActionResolver
}.

(** A value handed to the logger next to a key. *)
Inductive logValue : Type :=
| LogString (s : string)
| LogStrings (l : list string).

(** What a call does to its collaborators, in the order it does it. *)
Inductive event : Type :=
| EvDebug (l : Logger) (msg : string) (kv : list (string * logValue))
| EvResolve (prefix : string) (orgID : Z) (scope : string)
| EvCacheSet (key : string) (x : list string) (d : time.Duration)
| EvResolveAction (action : string).

Record state : Type := mkState {
  resolvers : Resolvers;
  world : World;
  trace : list event
}.

Definition M (A : Type) : Type := state → A * state.

#[global] Instance M_ret : MRet M := λ A (a : A) st, (a, st).
#[global] Instance M_bind : MBind M := λ A B (f : A → M B) (m : M A) st,
  let '(a, st') := m st in f a st'.

Definition emit (e : event) : M unit := λ st,
  (tt, mkState (resolvers st) (world st) (trace st ++ [e])).

Definition get_resolvers : M Resolvers := λ st, (resolvers st, st).

Definition put_resolvers (s : Resolvers) : M unit := λ st,
  (tt, mkState s (world st) (trace st)).

(** [s.log.Debug(msg, kv...)] *)
Definition log_Debug (msg : string) (kv : list (string * logValue)) : M unit :=
  s ← get_resolvers; emit (EvDebug (log s) msg kv).

(** [s.cache.Get(key)] *)
Definition cache_Get (key : string) : M (option (list string)) := λ st,
  (localcache.Get (cache (resolvers st)) key (now (world st)), st).

(** [s.cache.Set(key, x, d)] *)
Definition cache_Set (key : string) (x : list string) (d : time.Duration) : M unit :=
  λ st,
  let s := resolvers st in
  let c := localcache.Set_ (cache s) key x d (now (world st)) in
  (tt, mkState (mkResolvers (log s) c (attributeResolvers s) (actionResolver s))
               (world st) (trace st ++ [EvCacheSet key x d])).

(** [resolver.Resolve(ctx, orgID, scope)], for the resolver registered
    under [prefix]. *)
Definition call_Resolve (prefix : string) (resolver : ScopeAttributeResolver)
    (ctx : ctxT) (orgID : Z) (scope : string) : M (list string * option error) :=
  λ st,
  let '(r, w) := Resolve resolver ctx orgID scope (world st) in
  (r, mkState (resolvers st) w (trace st ++ [EvResolve prefix orgID scope])).

(** [s.actionResolver.ResolveAction(action)] *)
Definition call_ResolveAction (resolver : ActionResolver) (action : string)
    : M (list string) :=
  λ st,
  let '(r, w) := ResolveAction resolver action (world st) in
  (r, mkState (resolvers st) w (trace st ++ [EvResolveAction action])).

Definition NewResolvers (log : Logger) : Resolvers :=
  mkResolvers log (localcache.New ttl cleanInterval) ∅ None.

Definition AddScopeAttributeResolver (prefix : string)
    (resolver : ScopeAttributeResolver) : M unit :=
  log_Debug "Adding scope attribute resolver" [("prefix", LogString prefix)];;
  s ← get_resolvers;
  put_resolvers (mkResolvers (log s) (cache s)
                   (<[prefix := resolver]> (attributeResolvers s))
                   (actionResolver s)).

(** The argument is an interface value, which may be nil. *)
Definition SetActionResolver (resolver : option ActionResolver) : M unit :=
  s ← get_resolvers;
  put_resolvers (mkResolvers (log s) (cache s) (attributeResolvers s) resolver).

(** The function returned by [GetScopeAttributeMutator orgID]; the closure
    keeps a pointer to the registry, so it sees the registry of the moment
    of the call. *)
Definition GetScopeAttributeMutator (orgID : Z) (ctx : ctxT) (scope : string)
    : M (list string * option error) :=
  let key := getScopeCacheKey orgID scope in
  cachedScope ← cache_Get key;
  match cachedScope with
  | Some scopes =>
      log_Debug "Used cache to resolve scope"
        [("scope", LogString scope); ("resolved_scopes", LogStrings scopes)];;
      mret (scopes, None)
  | None =>
      let prefix := ScopePrefix scope in
      s ← get_resolvers;
      match attributeResolvers s !! prefix with
      | Some resolver =>
          '(scopes, err) ← call_Resolve prefix resolver ctx orgID scope;
          match err with
          | Some err => mret ([], Some (could_not_resolve scope err))
          | None =>
              cache_Set key scopes ttl;;
              log_Debug "Resolved scope"
                [("scope", LogString scope); ("resolved_scopes", LogStrings scopes)];;
              mret (scopes, None)
          end
      | None => mret ([], Some ErrResolverNotFound)
      end
  end.

(** The function returned by [GetActionSetResolver].  [append] gives the
    elements of its first argument followed by the new one; whether it
    reuses the array behind the slice of the resolver is not visible in the
    value returned. *)
Definition GetActionSetResolver (ctx : ctxT) (action : string) : M (list string) :=
  s ← get_resolvers;
  match actionResolver s with
  | None => mret [action]
  | Some resolver =>
      actionSetActions ← call_ResolveAction resolver action;
      let actions := actionSetActions ++ [action] in
      log_Debug "Resolved action"
        [("action", LogString action); ("resolved_actions", LogStrings actions)];;
      mret actions
  end.

(** *** Vocabulary of the statements *)

(** The debug lines of the paths that return a result. *)
Definition used_cache_line (st : state) (scope : string) (scopes : list string)
    : event :=
  EvDebug (log (resolvers st)) "Used cache to resolve scope"
    [("scope", LogString scope); ("resolved_scopes", LogStrings scopes)].

Definition resolved_line (st : state) (scope : string) (scopes : list string)
    : event :=
  EvDebug (log (resolvers st)) "Resolved scope"
    [("scope", LogString scope); ("resolved_scopes", LogStrings scopes)].

Definition resolved_action_line (st : state) (action : string)
    (actions : list string) : event :=
  EvDebug (log (resolvers st)) "Resolved action"
    [("action", LogString action); ("resolved_actions", LogStrings actions)].

(** The events that are a call of a resolver, and those that are a write
    to the cache. *)
Definition is_Resolve (e : event) : bool :=
  match e with EvResolve _ _ _ => true | _ => false end.

Definition is_CacheSet (e : event) : bool :=
  match e with EvCacheSet _ _ _ => true | _ => false end.

(** The cache looked up at the instant of the call. *)
Definition cached (st : state) (orgID : Z) (scope : string)
    : option (list string) :=
  localcache.Get (cache (resolvers st)) (getScopeCacheKey orgID scope)
    (now (world st)).

(** What the mutator hands back for what a resolver returned. *)
Definition outcome_of (scope : string) (r : list string * option error)
    : list string * option error :=
  match r with
  | (scopes, None) => (scopes, None)
  | (_, Some err) => ([], Some (could_not_resolve scope err))
  end.

(** No entry of the cache outlives the time-to-live: counted from the
    instant of the state, every entry expires within [ttl]. *)
Definition cache_within_ttl (st : state) : Prop :=
  ∀ (k : string) (it : localcache.Item),
    localcache.items (cache (resolvers st)) !! k = Some it →
    localcache.Expiration it <= now (world st) + ttl.

End Resolvers.

(** A string without the character that [getScopeCacheKey] joins with. *)
Fixpoint no_dash (s : string) : Prop :=
  match s with
  | EmptyString => True
  | String c s' => c ≠ "-"%char ∧ no_dash s'
  end.

(** ** A concrete registry, used to run the statements *)

Module Example.
(** The world is a clock that also counts: every resolver call moves it
    one nanosecond forward. *)
Definition World : Type := Z.
Definition now (w : World) : Z := w.

(** A prefix rule that keeps a scope up to and including its last colon. *)
Fixpoint ScopePrefix (scope : string) : string :=
  match scope with
  | EmptyString => EmptyString
  | String c rest =>
      match ScopePrefix rest with
      | EmptyString => if Ascii.eqb c ":" then String c EmptyString else EmptyString
      | p => String c p
      end
  end.

Definition ErrResolverNotFound : error := errorString "no resolver found".

Definition dashboards : @ScopeAttributeResolver unit World :=
  ScopeAttributeResolverFunc (λ _ _ _ w,
    ((["dashboards:uid:abc"; "folders:uid:xyz"], None), w + 1)).

Definition other : @ScopeAttributeResolver unit World :=
  ScopeAttributeResolverFunc (λ _ _ _ w, ((["folders:uid:general"], None), w + 1)).

Definition failing : @ScopeAttributeResolver unit World :=
  ScopeAttributeResolverFunc (λ _ _ _ w,
    (([], Some (errorString "dashboard not found")), w + 1)).

Definition actions : @ActionResolver unit World :=
  mkActionResolver
    (λ action w,
       (if String.eqb action "dashboards:read" then ["dashboards:view"] else [], w))
    (λ _ w, ([], w))
    (λ ps w, (ps, w)).

Definition empty : @state unit unit unit World :=
  mkState (NewResolvers tt) 5 [].

Definition registered (r : @ScopeAttributeResolver unit World)
    : @state unit unit unit World :=
  (AddScopeAttributeResolver "dashboards:id:" r empty).2.

Definition mutator :=
  @GetScopeAttributeMutator unit unit unit World now ScopePrefix ErrResolverNotFound.

(** The registry after one successful resolution for organization 7. *)
Definition warm : @state unit unit unit World :=
  (mutator 7 tt "dashboards:id:1" (registered dashboards)).2.

Definition with_actions : @state unit unit unit World :=
  (SetActionResolver (Some actions) empty).2.
End Example.

(** * Properties *)

(** ** The cache key *)

Example getScopeCacheKey_dashboard :
  getScopeCacheKey 7 "dashboards:id:1" = "dashboards:id:1-7".
Proof. reflexivity. Qed.

Example getScopeCacheKey_negative :
  getScopeCacheKey (-12) "folders:uid:x" = "folders:uid:x--12".
Proof. reflexivity. Qed.

Example getScopeCacheKey_distinct_pair :
  getScopeCacheKey 0 "a-1" = "a-1-0" ∧ getScopeCacheKey 1 "a" = "a-1".
Proof. split; reflexivity. Qed.

Lemma append_nil_l (s : string) : "" +:+ s = s.
Proof. reflexivity. Qed.

Lemma append_cons (c : ascii) (s t : string) :
  String c s +:+ t = String c (s +:+ t).
Proof. reflexivity. Qed.

Lemma append_assoc (s t u : string) : (s +:+ t) +:+ u = s +:+ t +:+ u.
Proof.
  induction s as [|c s IH]; [done|].
  by rewrite !append_cons, IH.
Qed.

Lemma no_dash_app_dash (s d : string) : ¬ no_dash (s +:+ String "-" d).
Proof.
  induction s as [|c s IH]; simpl.
  - intros [Hc _]. by apply Hc.
  - intros [_ Hs]. by apply IH.
Qed.

Lemma pretty_N_char_no_dash (x : N) : pretty_N_char x ≠ "-"%char.
Proof. unfold pretty_N_char. by repeat case_match. Qed.

Lemma pretty_N_go_no_dash (x : N) (s : string) :
  no_dash s → no_dash (pretty_N_go x s).
Proof.
  revert s. induction (N.lt_wf_0 x) as [x _ IH]; intros s Hs.
  destruct (decide (x = 0%N)) as [->|Hx].
  - by rewrite pretty_N_go_0.
  - rewrite pretty_N_go_step by lia.
    apply IH; [apply N.div_lt; lia|].
    split; [apply pretty_N_char_no_dash|done].
Qed.

Lemma pretty_N_no_dash (x : N) : no_dash (pretty x).
Proof.
  unfold pretty, pretty_N. case_decide.
  - by repeat split.
  - by apply pretty_N_go_no_dash.
Qed.

(** The digits of a non-negative number hold no minus sign. *)
Lemma formatInt64_no_dash (z : Z) : 0 <= z → no_dash (formatInt64 z).
Proof.
  destruct z as [|p|p]; intros Hz; [by repeat split| |lia].
  apply (pretty_N_no_dash (Npos p)).
Qed.

(** A negative number is a minus sign before the digits of its opposite. *)
Lemma formatInt64_neg (z : Z) : z < 0 → formatInt64 z = "-" +:+ formatInt64 (- z).
Proof. destruct z as [|p|p]; intros Hz; [lia|lia|done]. Qed.

Lemma formatInt64_inj (z1 z2 : Z) : formatInt64 z1 = formatInt64 z2 → z1 = z2.
Proof. apply pretty_Z_inj. Qed.

(** The last minus sign of a key cuts it in one way only. *)
Lemma split_last_dash (s1 s2 d1 d2 : string) :
  no_dash d1 → no_dash d2 →
  s1 +:+ "-" +:+ d1 = s2 +:+ "-" +:+ d2 → s1 = s2 ∧ d1 = d2.
Proof.
  intros Hd1 Hd2. revert s2.
  induction s1 as [|c1 s1 IH]; intros [|c2 s2];
    rewrite ?append_cons, ?append_nil_l; intros Heq.
  - by injection Heq as ->.
  - injection Heq as <- ->. by destruct (no_dash_app_dash s2 d2).
  - injection Heq as -> <-. by destruct (no_dash_app_dash s1 d1).
  - injection Heq as -> Heq. by destruct (IH _ Heq) as [-> ->].
Qed.

Lemma app_dash_inj (s1 s2 : string) : s1 +:+ "-" = s2 +:+ "-" → s1 = s2.
Proof.
  intros Heq. by destruct (split_last_dash s1 s2 "" "" I I Heq).
Qed.

Lemma getScopeCacheKey_neg (orgID : Z) (scope : string) :
  orgID < 0 →
  getScopeCacheKey orgID scope = (scope +:+ "-") +:+ "-" +:+ formatInt64 (- orgID).
Proof.
  intros Hneg. unfold getScopeCacheKey. rewrite (formatInt64_neg _ Hneg).
  by rewrite append_assoc.
Qed.

(** How two keys can be equal: the pairs are the same, or one organization
    id is the opposite of the other and the scope of the non-negative one
    is the other scope followed by a minus sign. *)
Lemma getScopeCacheKey_eq_cases (orgID1 orgID2 : Z) (scope1 scope2 : string) :
  getScopeCacheKey orgID1 scope1 = getScopeCacheKey orgID2 scope2 →
  (orgID1 = orgID2 ∧ scope1 = scope2)
  ∨ (orgID1 < 0 ∧ orgID2 = - orgID1 ∧ scope2 = scope1 +:+ "-")
  ∨ (orgID2 < 0 ∧ orgID1 = - orgID2 ∧ scope1 = scope2 +:+ "-").
Proof.
  intros Heq.
  destruct (decide (orgID1 < 0)) as [H1|H1], (decide (orgID2 < 0)) as [H2|H2].
  - rewrite !getScopeCacheKey_neg in Heq by done.
    apply split_last_dash in Heq as [Hs Hd];
      [|apply formatInt64_no_dash; lia..].
    left. apply app_dash_inj in Hs. apply formatInt64_inj in Hd. split; [lia|done].
  - rewrite getScopeCacheKey_neg in Heq by done. unfold getScopeCacheKey in Heq.
    apply split_last_dash in Heq as [Hs Hd];
      [|apply formatInt64_no_dash; lia..].
    right; left. apply formatInt64_inj in Hd. split; [done|]. split; [lia|done].
  - rewrite (getScopeCacheKey_neg orgID2) in Heq by done. unfold getScopeCacheKey in Heq.
    apply split_last_dash in Heq as [Hs Hd];
      [|apply formatInt64_no_dash; lia..].
    right; right. apply formatInt64_inj in Hd. split; [done|]. split; [lia|done].
  - unfold getScopeCacheKey in Heq.
    apply split_last_dash in Heq as [Hs Hd];
      [|apply formatInt64_no_dash; lia..].
    left. apply formatInt64_inj in Hd. done.
Qed.

(** C3, as the specification states it, fails: organization -1 with scope
    "a" and organization 1 with scope "a-" are two different pairs of an
    int64 and a string, and both get the key "a--1". *)
Lemma getScopeCacheKey_not_injective :
  ¬ (∀ (orgID1 orgID2 : Z) (scope1 scope2 : string),
       int64_range orgID1 → int64_range orgID2 →
       getScopeCacheKey orgID1 scope1 = getScopeCacheKey orgID2 scope2 →
       orgID1 = orgID2 ∧ scope1 = scope2).
Proof.
  intros Hinj.
  destruct (Hinj (-1) 1 "a" "a-") as [Horg _].
  - unfold int64_range. lia.
  - unfold int64_range. lia.
  - reflexivity.
  - discriminate Horg.
Qed.

(** C3, amended: among organization ids of the same sign (both negative, or
    both non-negative as the ids of real organizations are) the cache key
    is injective: equal keys come from the same organization id and the
    same scope string. *)
Theorem getScopeCacheKey_inj_same_sign (orgID1 orgID2 : Z) (scope1 scope2 : string) :
  (orgID1 < 0 ↔ orgID2 < 0) →
  getScopeCacheKey orgID1 scope1 = getScopeCacheKey orgID2 scope2 →
  orgID1 = orgID2 ∧ scope1 = scope2.
Proof.
  intros Hsign Heq.
  destruct (getScopeCacheKey_eq_cases _ _ _ _ Heq) as [?|[(?&?&?)|(?&?&?)]];
    [done|lia|lia].
Qed.

Lemma getScopeCacheKey_inj_same_sign_witness :
  getScopeCacheKey 7 "dashboards:id:1" = getScopeCacheKey 7 "dashboards:id:1"
  ∧ (7 = 7 ∧ "dashboards:id:1" = "dashboards:id:1").
Proof.
  split; [reflexivity|].
  apply (getScopeCacheKey_inj_same_sign 7 7 "dashboards:id:1" "dashboards:id:1");
    [lia|reflexivity].
Defined.

(** ** The scope mutator *)

Section Mutator.

Context {ctxT Logger Permission World : Type}.
Variable now : World → Z.
Variable ScopePrefix : string → string.
Variable ErrResolverNotFound : error.

Abbreviation state := (@state ctxT Logger Permission World).
Abbreviation mutator := (GetScopeAttributeMutator now ScopePrefix ErrResolverNotFound).

Implicit Types (st : state) (orgID : Z) (ctx : ctxT) (scope : string).
Implicit Types (resolver : @ScopeAttributeResolver ctxT World).

(** One unfolding of the mutator for each of its two first branches. *)
Lemma mutator_hit st orgID ctx scope scopes :
  cached now st orgID scope = Some scopes →
  mutator orgID ctx scope st
  = ((scopes, None),
     mkState (resolvers st) (world st)
       (trace st ++ [used_cache_line st scope scopes])).
Proof.
  unfold cached. intros Hget.
  unfold GetScopeAttributeMutator, mbind, M_bind, cache_Get. by rewrite Hget.
Qed.

Lemma mutator_miss st orgID ctx scope :
  cached now st orgID scope = None →
  mutator orgID ctx scope st
  = match attributeResolvers (resolvers st) !! ScopePrefix scope with
    | Some resolver =>
        let '((scopes, err), w) := Resolve resolver ctx orgID scope (world st) in
        let st1 := mkState (resolvers st) w
                     (trace st ++ [EvResolve (ScopePrefix scope) orgID scope]) in
        match err with
        | Some err => (([], Some (could_not_resolve scope err)), st1)
        | None =>
            let s := resolvers st in
            let key := getScopeCacheKey orgID scope in
            ((scopes, None),
             mkState
               (mkResolvers (log s) (localcache.Set_ (cache s) key scopes ttl (now w))
                  (attributeResolvers s) (actionResolver s))
               w
               (trace st ++ [EvResolve (ScopePrefix scope) orgID scope;
                             EvCacheSet key scopes ttl;
                             resolved_line st scope scopes]))
        end
    | None => (([], Some ErrResolverNotFound), st)
    end.
Proof.
  unfold cached. intros Hget.
  unfold GetScopeAttributeMutator, mbind, M_bind, cache_Get. rewrite Hget.
  unfold get_resolvers.
  destruct (attributeResolvers (resolvers st) !! ScopePrefix scope) as [resolver|];
    [|done].
  unfold call_Resolve.
  destruct (Resolve resolver ctx orgID scope (world st)) as [[scopes [err|]] w];
    [done|].
  unfold mbind, M_bind, cache_Set, log_Debug, get_resolvers, emit, mret, M_ret,
    resolved_line; simpl.
  by rewrite <- !(assoc_L (++)).
Qed.

(** C1: when the cache holds an entry for the key of (orgID, scope) that is
    not expired at the instant of the call, the scope mutator returns the
    cached scopes and no error; the registry with its cache and the world of
    the resolvers are left as they were, and the only thing done is one
    debug line: no resolver is invoked and nothing is written to the
    cache. *)
Theorem mutator_cache_hit st orgID ctx scope (it : localcache.Item) :
  localcache.items (cache (resolvers st)) !! getScopeCacheKey orgID scope = Some it →
  localcache.Expired (now (world st)) it = false →
  ∃ st',
    mutator orgID ctx scope st = ((localcache.Object it, None), st')
    ∧ resolvers st' = resolvers st
    ∧ world st' = world st
    ∧ trace st' = trace st ++ [used_cache_line st scope (localcache.Object it)]
    ∧ List.filter is_Resolve (trace st') = List.filter is_Resolve (trace st)
    ∧ List.filter is_CacheSet (trace st') = List.filter is_CacheSet (trace st).
Proof.
  intros Hit Hlive. eexists. split.
  - apply mutator_hit. unfold cached, localcache.Get. by rewrite Hit, Hlive.
  - simpl. repeat (split; [done|]).
    rewrite !List.filter_app. simpl. by rewrite !app_nil_r.
Qed.

(** C2: when the cache gives nothing for the key, a resolver is registered
    for the prefix of the scope and that resolver succeeds, the scope
    mutator returns the scopes of the resolver and no error, and the cache
    then holds these scopes under the key of (orgID, scope), expiring [ttl],
    which is 30 seconds, after the instant of the write. *)
Theorem mutator_resolves_and_caches st orgID ctx scope resolver
    (scopes : list string) (w : World) :
  cached now st orgID scope = None →
  attributeResolvers (resolvers st) !! ScopePrefix scope = Some resolver →
  Resolve resolver ctx orgID scope (world st) = ((scopes, None), w) →
  ∃ st',
    mutator orgID ctx scope st = ((scopes, None), st')
    ∧ world st' = w
    ∧ cache (resolvers st')
      = localcache.Set_ (cache (resolvers st)) (getScopeCacheKey orgID scope)
          scopes ttl (now w)
    ∧ localcache.items (cache (resolvers st')) !! getScopeCacheKey orgID scope
      = Some (localcache.mkItem scopes (now w + 30 * 1000000000))
    ∧ attributeResolvers (resolvers st') = attributeResolvers (resolvers st)
    ∧ trace st'
      = trace st ++ [EvResolve (ScopePrefix scope) orgID scope;
                     EvCacheSet (getScopeCacheKey orgID scope) scopes ttl;
                     resolved_line st scope scopes].
Proof.
  intros Hmiss Hfound Hres. rewrite (mutator_miss _ _ _ _ Hmiss), Hfound, Hres.
  eexists. split; [reflexivity|]. simpl.
  repeat split. apply lookup_insert_eq.
Qed.

(** C4: when the cache gives nothing for the key and no resolver is
    registered for the prefix of the scope, the scope mutator fails with
    [ErrResolverNotFound] and leaves the whole state as it was: no cache
    write, no resolver call, no debug line. *)
Theorem mutator_resolver_not_found st orgID ctx scope :
  cached now st orgID scope = None →
  attributeResolvers (resolvers st) !! ScopePrefix scope = None →
  mutator orgID ctx scope st = (([], Some ErrResolverNotFound), st).
Proof.
  intros Hmiss Hnone. by rewrite (mutator_miss _ _ _ _ Hmiss), Hnone.
Qed.

Lemma mutator_miss_found st orgID ctx scope resolver :
  cached now st orgID scope = None →
  attributeResolvers (resolvers st) !! ScopePrefix scope = Some resolver →
  ∃ st',
    mutator orgID ctx scope st
    = (outcome_of scope (Resolve resolver ctx orgID scope (world st)).1, st')
    ∧ world st' = (Resolve resolver ctx orgID scope (world st)).2
    ∧ ∃ evs, trace st' = trace st ++ EvResolve (ScopePrefix scope) orgID scope :: evs.
Proof.
  intros Hmiss Hfound. rewrite (mutator_miss _ _ _ _ Hmiss), Hfound.
  destruct (Resolve resolver ctx orgID scope (world st)) as [[scopes [err|]] w];
    simpl; eexists; (split; [reflexivity|]); simpl; (split; [done|]).
  - by exists [].
  - by eexists.
Qed.

(** C5: when the cache gives nothing for the key and the resolver
    registered for the prefix of the scope returns an error, the scope
    mutator returns an error that wraps the error of the resolver and whose
    text names the scope; the registry and its cache are left as they were.
    A later call on the same registry, for which the cache still gives
    nothing, calls the resolver again and hands back what it returns then. *)
Theorem mutator_resolver_error st orgID ctx scope resolver
    (scopes : list string) (err : error) (w : World) :
  cached now st orgID scope = None →
  attributeResolvers (resolvers st) !! ScopePrefix scope = Some resolver →
  Resolve resolver ctx orgID scope (world st) = ((scopes, Some err), w) →
  ∃ e st',
    mutator orgID ctx scope st = (([], Some e), st')
    ∧ Unwrap e = Some err
    ∧ Error e = "could not resolve " +:+ scope +:+ ": " +:+ Error err
    ∧ resolvers st' = resolvers st
    ∧ world st' = w
    ∧ trace st' = trace st ++ [EvResolve (ScopePrefix scope) orgID scope]
    ∧ ∀ st2,
        resolvers st2 = resolvers st' →
        cached now st2 orgID scope = None →
        ∃ st2',
          mutator orgID ctx scope st2
          = (outcome_of scope (Resolve resolver ctx orgID scope (world st2)).1, st2')
          ∧ world st2' = (Resolve resolver ctx orgID scope (world st2)).2
          ∧ ∃ evs,
              trace st2'
              = trace st2 ++ EvResolve (ScopePrefix scope) orgID scope :: evs.
Proof.
  intros Hmiss Hfound Hres.
  exists (could_not_resolve scope err). eexists. split.
  - by rewrite (mutator_miss _ _ _ _ Hmiss), Hfound, Hres.
  - simpl. repeat (split; [done|]).
    intros st2 Hsame Hmiss2. apply mutator_miss_found; [done|].
    by rewrite Hsame.
Qed.

(** The trace of the state plays no part in what the mutator returns and
    in what it does to the registry and to the world. *)
Lemma mutator_trace_irrelevant st orgID ctx scope (t : list event) :
  let st0 := mkState (resolvers st) (world st) t in
  (mutator orgID ctx scope st0).1 = (mutator orgID ctx scope st).1
  ∧ resolvers (mutator orgID ctx scope st0).2 = resolvers (mutator orgID ctx scope st).2
  ∧ world (mutator orgID ctx scope st0).2 = world (mutator orgID ctx scope st).2.
Proof.
  intros st0.
  destruct (cached now st orgID scope) as [scopes|] eqn:Hc.
  - rewrite (mutator_hit st0 _ _ _ scopes), (mutator_hit st _ _ _ scopes); done.
  - rewrite (mutator_miss st0), (mutator_miss st) by done. simpl.
    destruct (attributeResolvers (resolvers st) !! ScopePrefix scope)
      as [resolver|]; [|done].
    by destruct (Resolve resolver ctx orgID scope (world st)) as [[scopes [err|]] w].
Qed.

(** C7: [AddScopeAttributeResolver] has no way to fail and takes any
    string as a prefix.  After resolver [A] and then resolver [B] were
    registered for one prefix, the registry maps the prefix to [B] and is
    the registry that registering [B] alone gives; the prefixes of the
    registry, before and after, are pairwise distinct, so a prefix has at
    most one resolver; and a scope of that prefix that the cache does not
    answer is resolved by [B]. *)
Theorem AddScopeAttributeResolver_last_write_wins st (prefix : string)
    (A B : @ScopeAttributeResolver ctxT World) :
  ∃ st2,
    (AddScopeAttributeResolver prefix A;; AddScopeAttributeResolver prefix B) st
    = (tt, st2)
    ∧ attributeResolvers (resolvers st2) !! prefix = Some B
    ∧ resolvers st2 = resolvers (AddScopeAttributeResolver prefix B st).2
    ∧ world st2 = world st
    ∧ NoDup (map_to_list (attributeResolvers (resolvers st))).*1
    ∧ NoDup (map_to_list (attributeResolvers (resolvers st2))).*1
    ∧ ∀ orgID ctx scope,
        ScopePrefix scope = prefix →
        cached now st2 orgID scope = None →
        ∃ st3,
          mutator orgID ctx scope st2
          = (outcome_of scope (Resolve B ctx orgID scope (world st2)).1, st3)
          ∧ world st3 = (Resolve B ctx orgID scope (world st2)).2.
Proof.
  eexists. split; [reflexivity|]. simpl.
  split; [apply lookup_insert_eq|].
  split; [by rewrite insert_insert_eq|].
  split; [done|].
  split; [apply NoDup_fst_map_to_list|].
  split; [apply NoDup_fst_map_to_list|].
  intros orgID ctx scope Hprefix Hmiss.
  edestruct (mutator_miss_found _ orgID ctx scope B Hmiss) as (st3 & Hrun & Hw & _).
  { rewrite Hprefix. apply lookup_insert_eq. }
  by exists st3.
Qed.

(** C9: the time-to-live is 30 seconds and the clean-up interval 2 minutes,
    the second longer than the first; the cache of a registry made by
    [NewResolvers] is built from these two; and whatever the scope mutator
    writes to the cache, it writes with the time-to-live: every cache write
    of a call carries [ttl], and an entry that a call changed expires
    [ttl] after the instant the call ended at. *)
Theorem cache_constants :
  ttl = 30 * 1000000000
  ∧ cleanInterval = 2 * (60 * 1000000000)
  ∧ ttl < cleanInterval
  ∧ (∀ l : Logger,
       cache (NewResolvers (ctxT:=ctxT) (Permission:=Permission) (World:=World) l)
       = localcache.New ttl cleanInterval
       ∧ localcache.defaultExpiration
           (cache (NewResolvers (ctxT:=ctxT) (Permission:=Permission) (World:=World) l))
         = 30 * time.Second
       ∧ localcache.cleanupInterval
           (cache (NewResolvers (ctxT:=ctxT) (Permission:=Permission) (World:=World) l))
         = 2 * time.Minute)
  ∧ ∀ st orgID ctx scope,
      ∃ evs,
        trace (mutator orgID ctx scope st).2 = trace st ++ evs
        ∧ (∀ key x d, EvCacheSet key x d ∈ evs → d = ttl)
        ∧ (∀ k it,
             localcache.items (cache (resolvers (mutator orgID ctx scope st).2)) !! k
             = Some it →
             localcache.items (cache (resolvers st)) !! k = Some it
             ∨ localcache.Expiration it
               = now (world (mutator orgID ctx scope st).2) + ttl).
Proof.
  split; [reflexivity|]. split; [reflexivity|]. split; [reflexivity|].
  split; [done|].
  intros st orgID ctx scope.
  destruct (cached now st orgID scope) as [scopes|] eqn:Hc.
  - rewrite (mutator_hit _ _ _ _ _ Hc). simpl. eexists. split; [done|].
    split; [|by left].
    intros key x d Hin. apply list_elem_of_singleton in Hin. discriminate Hin.
  - rewrite (mutator_miss _ _ _ _ Hc).
    destruct (attributeResolvers (resolvers st) !! ScopePrefix scope)
      as [resolver|].
    + destruct (Resolve resolver ctx orgID scope (world st)) as [[scopes [err|]] w];
        simpl.
      * eexists. split; [done|]. split; [|by left].
        intros key x d Hin. apply list_elem_of_singleton in Hin. discriminate Hin.
      * eexists. split; [done|]. split.
        -- intros key x d Hin.
           rewrite !elem_of_cons in Hin.
           destruct Hin as [Hin|[Hin|[Hin|Hin]]];
             [discriminate Hin|by injection Hin|discriminate Hin|].
           by apply not_elem_of_nil in Hin.
        -- intros k it Hk.
           destruct (decide (getScopeCacheKey orgID scope = k)) as [<-|Hne].
           ++ rewrite lookup_insert_eq in Hk. injection Hk as <-. by right.
           ++ rewrite lookup_insert_ne in Hk by done. by left.
    + exists []. split; [by rewrite app_nil_r|]. split; [|by left].
      intros key x d Hin. by apply not_elem_of_nil in Hin.
Qed.

End Mutator.

(** ** Action expansion *)

Section Actions.

Context {ctxT Logger Permission World : Type}.

Abbreviation astate := (@state ctxT Logger Permission World).
Implicit Types (st : astate) (ctx : ctxT) (action : string).
Implicit Types (resolver : @ActionResolver Permission World).

Lemma GetActionSetResolver_none st ctx action :
  actionResolver (resolvers st) = None →
  GetActionSetResolver ctx action st = ([action], st).
Proof.
  intros Hnone.
  unfold GetActionSetResolver, mbind, M_bind, get_resolvers. by rewrite Hnone.
Qed.

Lemma GetActionSetResolver_some st ctx action resolver :
  actionResolver (resolvers st) = Some resolver →
  GetActionSetResolver ctx action st
  = let '(members, w) := ResolveAction resolver action (world st) in
    (members ++ [action],
     mkState (resolvers st) w
       (trace st ++ [EvResolveAction action;
                     resolved_action_line st action (members ++ [action])])).
Proof.
  intros Hsome.
  unfold GetActionSetResolver, mbind, M_bind, get_resolvers. rewrite Hsome.
  unfold call_ResolveAction.
  destruct (ResolveAction resolver action (world st)) as [members w].
  unfold log_Debug, mbind, M_bind, get_resolvers, emit, mret, M_ret,
    resolved_action_line; simpl.
  by rewrite <- !(assoc_L (++)).
Qed.

(** C6: with no action resolver installed, the action expansion returns
    the one-element sequence of the action and does nothing else.  With an
    action resolver installed, it returns what [ResolveAction] gives for the
    action, in its order, followed by the action itself; nothing is
    removed, so the result is one longer than what [ResolveAction] gave,
    repeated entries included. *)
Theorem GetActionSetResolver_expands st ctx action :
  (actionResolver (resolvers st) = None →
   GetActionSetResolver ctx action st = ([action], st))
  ∧ (∀ resolver (members : list string) (w : World),
       actionResolver (resolvers st) = Some resolver →
       ResolveAction resolver action (world st) = (members, w) →
       ∃ st',
         GetActionSetResolver ctx action st = (members ++ [action], st')
         ∧ length (GetActionSetResolver ctx action st).1 = S (length members)
         ∧ resolvers st' = resolvers st
         ∧ world st' = w
         ∧ trace st'
           = trace st ++ [EvResolveAction action;
                          resolved_action_line st action (members ++ [action])]).
Proof.
  split; [apply GetActionSetResolver_none|].
  intros resolver members w Hsome Hres.
  rewrite (GetActionSetResolver_some _ _ _ _ Hsome), Hres.
  eexists. split; [reflexivity|]. simpl.
  split; [|done]. rewrite length_app. simpl. lia.
Qed.

(** C10: with an action resolver installed, the sequence that the action
    expansion returns is not empty and ends with the action it was called
    with; and when [ResolveAction] gives the empty sequence the result is
    the one-element sequence of the action, which is also what a registry
    without action resolver returns. *)
Theorem GetActionSetResolver_ends_with_action st ctx action resolver :
  actionResolver (resolvers st) = Some resolver →
  (GetActionSetResolver ctx action st).1 ≠ []
  ∧ last (GetActionSetResolver ctx action st).1 = Some action
  ∧ ((ResolveAction resolver action (world st)).1 = [] →
     (GetActionSetResolver ctx action st).1 = [action]
     ∧ ∀ st0,
         actionResolver (resolvers st0) = None →
         (GetActionSetResolver ctx action st0).1
         = (GetActionSetResolver ctx action st).1).
Proof.
  intros Hsome. rewrite (GetActionSetResolver_some _ _ _ _ Hsome).
  destruct (ResolveAction resolver action (world st)) as [members w]; simpl.
  split; [by destruct members|].
  split; [apply last_snoc|].
  intros ->. split; [done|].
  intros st0 Hnone. by rewrite (GetActionSetResolver_none _ _ _ Hnone).
Qed.

End Actions.

(** ** The statements at work on the concrete registry *)

Example ScopePrefix_dashboard : Example.ScopePrefix "dashboards:id:1" = "dashboards:id:".
Proof. reflexivity. Qed.

Example first_call_resolves :
  (Example.mutator 7 tt "dashboards:id:1" (Example.registered Example.dashboards)).1
  = (["dashboards:uid:abc"; "folders:uid:xyz"], None).
Proof. vm_compute. reflexivity. Qed.

Example second_call_is_served_by_the_cache :
  let st := (Example.mutator 7 tt "dashboards:id:1" Example.warm).2 in
  world st = world Example.warm
  ∧ List.filter is_Resolve (trace st)
    = [EvResolve "dashboards:id:" 7 "dashboards:id:1"]
  ∧ List.filter is_CacheSet (trace st) = List.filter is_CacheSet (trace Example.warm).
Proof. vm_compute. by repeat split. Qed.

Example other_organization_is_resolved_again :
  trace (Example.mutator 8 tt "dashboards:id:1" Example.warm).2
  = trace Example.warm
    ++ [EvResolve "dashboards:id:" 8 "dashboards:id:1";
        EvCacheSet "dashboards:id:1-8" ["dashboards:uid:abc"; "folders:uid:xyz"] ttl;
        resolved_line Example.warm "dashboards:id:1"
          ["dashboards:uid:abc"; "folders:uid:xyz"]].
Proof. vm_compute. reflexivity. Qed.

Example expired_entry_is_resolved_again :
  let late := mkState (resolvers Example.warm) (6 + ttl + 1) [] in
  trace (Example.mutator 7 tt "dashboards:id:1" late).2
  = [EvResolve "dashboards:id:" 7 "dashboards:id:1";
     EvCacheSet "dashboards:id:1-7" ["dashboards:uid:abc"; "folders:uid:xyz"] ttl;
     resolved_line Example.warm "dashboards:id:1"
       ["dashboards:uid:abc"; "folders:uid:xyz"]].
Proof. vm_compute. reflexivity. Qed.

Lemma mutator_cache_hit_witness :
  ∃ st',
    Example.mutator 7 tt "dashboards:id:1" Example.warm
    = ((["dashboards:uid:abc"; "folders:uid:xyz"], None), st')
    ∧ resolvers st' = resolvers Example.warm
    ∧ world st' = world Example.warm
    ∧ trace st'
      = trace Example.warm
        ++ [used_cache_line Example.warm "dashboards:id:1"
              ["dashboards:uid:abc"; "folders:uid:xyz"]]
    ∧ List.filter is_Resolve (trace st') = List.filter is_Resolve (trace Example.warm)
    ∧ List.filter is_CacheSet (trace st')
      = List.filter is_CacheSet (trace Example.warm).
Proof.
  apply (mutator_cache_hit Example.now Example.ScopePrefix Example.ErrResolverNotFound
           Example.warm 7 tt "dashboards:id:1"
           (localcache.mkItem ["dashboards:uid:abc"; "folders:uid:xyz"] (6 + ttl))).
  - vm_compute. reflexivity.
  - vm_compute. reflexivity.
Defined.

Lemma mutator_resolves_and_caches_witness :
  ∃ st',
    Example.mutator 7 tt "dashboards:id:1" (Example.registered Example.dashboards)
    = ((["dashboards:uid:abc"; "folders:uid:xyz"], None), st')
    ∧ localcache.items (cache (resolvers st')) !! "dashboards:id:1-7"
      = Some (localcache.mkItem ["dashboards:uid:abc"; "folders:uid:xyz"] 30000000006).
Proof.
  destruct (mutator_resolves_and_caches Example.now Example.ScopePrefix
              Example.ErrResolverNotFound (Example.registered Example.dashboards)
              7 tt "dashboards:id:1" Example.dashboards
              ["dashboards:uid:abc"; "folders:uid:xyz"] 6)
    as (st' & Hrun & _ & _ & Hitem & _).
  - vm_compute. reflexivity.
  - vm_compute. reflexivity.
  - vm_compute. reflexivity.
  - exists st'. split; [exact Hrun|exact Hitem].
Defined.

Lemma mutator_resolver_not_found_witness :
  Example.mutator 7 tt "folders:id:3" (Example.registered Example.dashboards)
  = (([], Some Example.ErrResolverNotFound), Example.registered Example.dashboards).
Proof.
  apply (mutator_resolver_not_found Example.now Example.ScopePrefix
           Example.ErrResolverNotFound (Example.registered Example.dashboards)
           7 tt "folders:id:3").
  - vm_compute. reflexivity.
  - vm_compute. reflexivity.
Defined.

Lemma mutator_resolver_error_witness :
  ∃ e st',
    Example.mutator 7 tt "dashboards:id:1" (Example.registered Example.failing)
    = (([], Some e), st')
    ∧ Unwrap e = Some (errorString "dashboard not found")
    ∧ Error e = "could not resolve dashboards:id:1: dashboard not found"
    ∧ resolvers st' = resolvers (Example.registered Example.failing)
    ∧ trace (Example.mutator 7 tt "dashboards:id:1" st').2
      = trace st' ++ [EvResolve "dashboards:id:" 7 "dashboards:id:1"].
Proof.
  destruct (mutator_resolver_error Example.now Example.ScopePrefix
              Example.ErrResolverNotFound (Example.registered Example.failing)
              7 tt "dashboards:id:1" Example.failing [] 
              (errorString "dashboard not found") 6)
    as (e & st' & Hrun & Hunwrap & Herror & Hsame & _ & _ & _).
  - vm_compute. reflexivity.
  - vm_compute. reflexivity.
  - vm_compute. reflexivity.
  - exists e, st'. repeat (split; [assumption|]).
    injection Hrun as _ <-. vm_compute. reflexivity.
Defined.

Lemma AddScopeAttributeResolver_last_write_wins_witness :
  ∃ st2,
    (AddScopeAttributeResolver "dashboards:id:" Example.other;;
     AddScopeAttributeResolver "dashboards:id:" Example.dashboards) Example.empty
    = (tt, st2)
    ∧ (Example.mutator 7 tt "dashboards:id:1" st2).1
      = (["dashboards:uid:abc"; "folders:uid:xyz"], None).
Proof.
  destruct (AddScopeAttributeResolver_last_write_wins Example.now Example.ScopePrefix
              Example.ErrResolverNotFound Example.empty "dashboards:id:"
              Example.other Example.dashboards)
    as (st2 & Hrun & _ & _ & _ & _ & _ & Huse).
  exists st2. split; [exact Hrun|].
  destruct (Huse 7 tt "dashboards:id:1") as (st3 & Hmut & _).
  - reflexivity.
  - injection Hrun as <-. vm_compute. reflexivity.
  - unfold Example.mutator. rewrite Hmut. injection Hrun as <-. reflexivity.
Defined.

Lemma GetActionSetResolver_expands_witness :
  GetActionSetResolver tt "dashboards:read" Example.empty
  = (["dashboards:read"], Example.empty)
  ∧ (GetActionSetResolver tt "dashboards:read" Example.with_actions).1
    = ["dashboards:view"; "dashboards:read"].
Proof.
  destruct (GetActionSetResolver_expands Example.empty tt "dashboards:read")
    as [Hnone _].
  destruct (GetActionSetResolver_expands Example.with_actions tt "dashboards:read")
    as [_ Hsome].
  split.
  - apply Hnone. reflexivity.
  - destruct (Hsome Example.actions ["dashboards:view"] 5) as (st' & -> & _).
    + reflexivity.
    + reflexivity.
    + reflexivity.
Defined.

Lemma GetActionSetResolver_ends_with_action_witness :
  last (GetActionSetResolver tt "dashboards:read" Example.with_actions).1
  = Some "dashboards:read"
  ∧ (GetActionSetResolver tt "folders:read" Example.with_actions).1 = ["folders:read"].
Proof.
  split.
  - destruct (GetActionSetResolver_ends_with_action Example.with_actions tt
                "dashboards:read" Example.actions eq_refl) as (_ & Hlast & _).
    exact Hlast.
  - destruct (GetActionSetResolver_ends_with_action Example.with_actions tt
                "folders:read" Example.actions eq_refl) as (_ & _ & Hempty).
    destruct (Hempty eq_refl) as [Hone _]. exact Hone.
Defined.


(** * Further properties *)

(** ** Collisions of the cache key *)

Lemma append_dash_neq (s : string) : s +:+ "-" ≠ s.
Proof.
  induction s as [|c s IH]; rewrite ?append_cons, ?append_nil_l.
  - discriminate.
  - intros Heq. injection Heq as Heq. by apply IH.
Qed.

(** Two keys are equal exactly when they come from the same organization id
    and scope, or when one organization id is negative, the other one is its
    opposite, and the scope of the other one is the scope of the negative
    one followed by a minus sign. *)
Theorem getScopeCacheKey_collision_iff (orgID1 orgID2 : Z) (scope1 scope2 : string) :
  getScopeCacheKey orgID1 scope1 = getScopeCacheKey orgID2 scope2
  ↔ (orgID1 = orgID2 ∧ scope1 = scope2)
    ∨ (orgID1 < 0 ∧ orgID2 = - orgID1 ∧ scope2 = scope1 +:+ "-")
    ∨ (orgID2 < 0 ∧ orgID1 = - orgID2 ∧ scope1 = scope2 +:+ "-").
Proof.
  split; [apply getScopeCacheKey_eq_cases|].
  intros [[-> ->]|[(Hneg & -> & ->)|(Hneg & -> & ->)]]; [done| |].
  - by rewrite (getScopeCacheKey_neg orgID1) by done.
  - by rewrite (getScopeCacheKey_neg orgID2) by done.
Qed.

(** The key keeps organizations apart and keeps scopes apart: two equal keys
    that come from the same scope come from the same organization id, and two
    equal keys that come from the same organization id come from the same
    scope, whatever the sign of the ids. *)
Theorem getScopeCacheKey_separates (orgID1 orgID2 : Z) (scope1 scope2 : string) :
  orgID1 = orgID2 ∨ scope1 = scope2 →
  getScopeCacheKey orgID1 scope1 = getScopeCacheKey orgID2 scope2 →
  orgID1 = orgID2 ∧ scope1 = scope2.
Proof.
  intros Hone Heq.
  destruct (getScopeCacheKey_eq_cases _ _ _ _ Heq)
    as [?|[(Hneg & Horg & Hs)|(Hneg & Horg & Hs)]]; [done| |].
  - destruct Hone as [->| ->]; [lia|]. by destruct (append_dash_neq scope2).
  - destruct Hone as [->| ->]; [lia|]. by destruct (append_dash_neq scope2).
Qed.

Lemma getScopeCacheKey_separates_witness :
  getScopeCacheKey (-1) "a-" = getScopeCacheKey (-1) "a-"
  ∧ ((-1) = (-1) ∧ "a-" = "a-").
Proof.
  split; [reflexivity|].
  apply (getScopeCacheKey_separates (-1) (-1) "a-" "a-"); [by left|reflexivity].
Defined.

(** ** What a call of the scope mutator touches *)

Section MutatorFrame.

Context {ctxT Logger Permission World : Type}.
Variable now : World → Z.
Variable ScopePrefix : string → string.
Variable ErrResolverNotFound : error.

Abbreviation fstate := (@state ctxT Logger Permission World).
Abbreviation fmutator :=
  (GetScopeAttributeMutator now ScopePrefix ErrResolverNotFound).

Implicit Types (st : fstate) (orgID : Z) (ctx : ctxT) (scope : string).
Implicit Types (resolver : @ScopeAttributeResolver ctxT World).

(** The four ways a call can end. *)
Lemma mutator_cases st orgID ctx scope :
  let key := getScopeCacheKey orgID scope in
  let s := resolvers st in
  (∃ scopes,
     cached now st orgID scope = Some scopes
     ∧ fmutator orgID ctx scope st
       = ((scopes, None),
          mkState s (world st) (trace st ++ [used_cache_line st scope scopes])))
  ∨ (cached now st orgID scope = None
     ∧ attributeResolvers s !! ScopePrefix scope = None
     ∧ fmutator orgID ctx scope st = (([], Some ErrResolverNotFound), st))
  ∨ (∃ resolver scopes err w,
       cached now st orgID scope = None
       ∧ attributeResolvers s !! ScopePrefix scope = Some resolver
       ∧ Resolve resolver ctx orgID scope (world st) = ((scopes, Some err), w)
       ∧ fmutator orgID ctx scope st
         = (([], Some (could_not_resolve scope err)),
            mkState s w (trace st ++ [EvResolve (ScopePrefix scope) orgID scope])))
  ∨ (∃ resolver scopes w,
       cached now st orgID scope = None
       ∧ attributeResolvers s !! ScopePrefix scope = Some resolver
       ∧ Resolve resolver ctx orgID scope (world st) = ((scopes, None), w)
       ∧ fmutator orgID ctx scope st
         = ((scopes, None),
            mkState
              (mkResolvers (log s) (localcache.Set_ (cache s) key scopes ttl (now w))
                 (attributeResolvers s) (actionResolver s))
              w
              (trace st ++ [EvResolve (ScopePrefix scope) orgID scope;
                            EvCacheSet key scopes ttl;
                            resolved_line st scope scopes]))).
Proof.
  intros key s.
  destruct (cached now st orgID scope) as [scopes|] eqn:Hc.
  { left. exists scopes. split; [done|]. by apply mutator_hit. }
  right. rewrite (mutator_miss _ _ _ _ _ _ _ Hc).
  destruct (attributeResolvers (resolvers st) !! ScopePrefix scope)
    as [resolver|] eqn:Hr.
  2: { left. done. }
  right.
  destruct (Resolve resolver ctx orgID scope (world st)) as [[scopes [err|]] w] eqn:Hres.
  - left. by exists resolver, scopes, err, w.
  - right. by exists resolver, scopes, w.
Qed.

(** A call changes nothing of the registry but the cache entry of its own
    key: the logger, the registered resolvers, the action resolver and the
    two settings of the cache are kept, and so is the entry of every other
    key. *)
Theorem mutator_frame st orgID ctx scope :
  let s := resolvers st in
  let s' := resolvers (fmutator orgID ctx scope st).2 in
  log s' = log s
  ∧ attributeResolvers s' = attributeResolvers s
  ∧ actionResolver s' = actionResolver s
  ∧ localcache.defaultExpiration (cache s') = localcache.defaultExpiration (cache s)
  ∧ localcache.cleanupInterval (cache s') = localcache.cleanupInterval (cache s)
  ∧ ∀ k,
      k ≠ getScopeCacheKey orgID scope →
      localcache.items (cache s') !! k = localcache.items (cache s) !! k.
Proof.
  destruct (mutator_cases st orgID ctx scope)
    as [(scopes & _ & ->)|[(_ & _ & ->)|[(r & scopes & err & w & _ & _ & _ & ->)
        |(r & scopes & w & _ & _ & _ & ->)]]]; simpl; try done.
  repeat (split; [done|]). intros k Hk. by rewrite lookup_insert_ne.
Qed.

(** Resolving a scope for one organization leaves what the cache answers
    for the same scope under any other organization as it was, at every
    instant. *)
Theorem mutator_other_organization st orgID ctx scope (orgID2 : Z) (t : Z) :
  orgID2 ≠ orgID →
  localcache.Get (cache (resolvers (fmutator orgID ctx scope st).2))
    (getScopeCacheKey orgID2 scope) t
  = localcache.Get (cache (resolvers st)) (getScopeCacheKey orgID2 scope) t.
Proof.
  intros Hne.
  assert (getScopeCacheKey orgID2 scope ≠ getScopeCacheKey orgID scope) as Hkey.
  { intros Heq. destruct (getScopeCacheKey_eq_cases _ _ _ _ Heq)
      as [[? _]|[(_ & _ & Hs)|(_ & _ & Hs)]]; [done|..];
      by destruct (append_dash_neq scope). }
  unfold localcache.Get.
  destruct (mutator_cases st orgID ctx scope)
    as [(scopes & _ & ->)|[(_ & _ & ->)|[(r & scopes & err & w & _ & _ & _ & ->)
        |(r & scopes & w & _ & _ & _ & ->)]]]; simpl; try done.
  by rewrite lookup_insert_ne.
Qed.

(** A call that returns an error returns no scopes with it, was not answered
    by the cache, and leaves the registry and its cache as they were; the
    error is [ErrResolverNotFound], or it wraps the error of the resolver of
    the prefix. *)
Theorem mutator_error_shape st orgID ctx scope (scopes : list string) (e : error) :
  (fmutator orgID ctx scope st).1 = (scopes, Some e) →
  scopes = []
  ∧ cached now st orgID scope = None
  ∧ resolvers (fmutator orgID ctx scope st).2 = resolvers st
  ∧ ((e = ErrResolverNotFound
      ∧ attributeResolvers (resolvers st) !! ScopePrefix scope = None)
     ∨ ∃ resolver err,
         attributeResolvers (resolvers st) !! ScopePrefix scope = Some resolver
         ∧ (Resolve resolver ctx orgID scope (world st)).1.2 = Some err
         ∧ e = could_not_resolve scope err).
Proof.
  destruct (mutator_cases st orgID ctx scope)
    as [(scopes0 & _ & ->)|[(Hc & Hr & ->)|[(r & scopes0 & err & w & Hc & Hr & Hres & ->)
        |(r & scopes0 & w & _ & _ & _ & ->)]]]; simpl; intros Heq;
    [discriminate Heq| | |discriminate Heq].
  - injection Heq as <- <-. repeat (split; [done|]). by left.
  - injection Heq as <- <-. repeat (split; [done|]). right.
    exists r, err. by rewrite Hres.
Qed.

(** One call makes at most one call of a resolver, and only after the cache
    gave nothing: the call goes to the resolver of the prefix of the scope,
    with the organization id and the scope of the call.  A write to the cache
    is made only after such a call, under the key of the call, and stores
    the very scopes that the call returns. *)
Theorem mutator_events st orgID ctx scope :
  ∃ evs,
    trace (fmutator orgID ctx scope st).2 = trace st ++ evs
    ∧ (length (List.filter is_Resolve evs) <= 1)%nat
    ∧ (∀ p o s,
         EvResolve p o s ∈ evs →
         p = ScopePrefix scope ∧ o = orgID ∧ s = scope
         ∧ cached now st orgID scope = None)
    ∧ (∀ k x d,
         EvCacheSet k x d ∈ evs →
         k = getScopeCacheKey orgID scope
         ∧ (fmutator orgID ctx scope st).1 = (x, None)
         ∧ EvResolve (ScopePrefix scope) orgID scope ∈ evs).
Proof.
  destruct (mutator_cases st orgID ctx scope)
    as [(scopes & _ & ->)|[(Hc & _ & ->)|[(r & scopes & err & w & Hc & _ & _ & ->)
        |(r & scopes & w & Hc & _ & _ & ->)]]]; simpl.
  - eexists. split; [done|]. split; [simpl; lia|].
    split; intros ??? Hin; apply list_elem_of_singleton in Hin; discriminate Hin.
  - exists []. split; [by rewrite app_nil_r|]. split; [simpl; lia|].
    split; intros ??? Hin; by apply not_elem_of_nil in Hin.
  - eexists. split; [done|]. split; [simpl; lia|].
    split; intros ??? Hin; apply list_elem_of_singleton in Hin;
      [by injection Hin as -> -> ->|discriminate Hin].
  - eexists. split; [done|]. split; [simpl; lia|].
    split; intros ??? Hin; rewrite !elem_of_cons in Hin;
      destruct Hin as [Hin|[Hin|[Hin|Hin]]];
      try discriminate Hin; try (by apply not_elem_of_nil in Hin).
    + by injection Hin as -> -> ->.
    + injection Hin as -> -> ->. repeat split. apply list_elem_of_here.
Qed.

End MutatorFrame.

(** ** The cache over time *)

Section CacheLifetime.

Context {ctxT Logger Permission World : Type}.
Variable now : World → Z.
Variable ScopePrefix : string → string.
Variable ErrResolverNotFound : error.

Abbreviation lstate := (@state ctxT Logger Permission World).
Abbreviation lmutator :=
  (GetScopeAttributeMutator now ScopePrefix ErrResolverNotFound).

Implicit Types (st : lstate) (orgID : Z) (ctx : ctxT) (scope : string).
Implicit Types (resolver : @ScopeAttributeResolver ctxT World).

(** The registry that a successful resolution leaves. *)
Lemma mutator_success_registry st orgID ctx scope resolver
    (scopes : list string) (w : World) :
  cached now st orgID scope = None →
  attributeResolvers (resolvers st) !! ScopePrefix scope = Some resolver →
  Resolve resolver ctx orgID scope (world st) = ((scopes, None), w) →
  resolvers (lmutator orgID ctx scope st).2
  = mkResolvers (log (resolvers st))
      (localcache.Set_ (cache (resolvers st)) (getScopeCacheKey orgID scope)
         scopes ttl (now w))
      (attributeResolvers (resolvers st)) (actionResolver (resolvers st)).
Proof.
  intros Hmiss Hfound Hres.
  by rewrite (mutator_miss _ _ _ _ _ _ _ Hmiss), Hfound, Hres.
Qed.

(** After a successful resolution, a later call for the same organization
    and scope that comes no later than [ttl] after the write is answered by
    the cache: it returns the same scopes, calls no resolver and leaves the
    registry and the world as they are. *)
Theorem mutator_second_call_within_ttl st orgID ctx scope resolver
    (scopes : list string) (w : World) (st2 : lstate) (ctx2 : ctxT) :
  cached now st orgID scope = None →
  attributeResolvers (resolvers st) !! ScopePrefix scope = Some resolver →
  Resolve resolver ctx orgID scope (world st) = ((scopes, None), w) →
  resolvers st2 = resolvers (lmutator orgID ctx scope st).2 →
  now (world st2) <= now w + ttl →
  lmutator orgID ctx2 scope st2
  = ((scopes, None),
     mkState (resolvers st2) (world st2)
       (trace st2 ++ [used_cache_line st2 scope scopes])).
Proof.
  intros Hmiss Hfound Hres Hsame Hsoon.
  apply mutator_hit. unfold cached. rewrite Hsame.
  rewrite (mutator_success_registry _ _ _ _ _ _ _ Hmiss Hfound Hres). simpl.
  unfold localcache.Get, localcache.Set_; simpl. rewrite lookup_insert_eq.
  unfold localcache.Expired; simpl.
  by destruct (Z.ltb_spec (now w + ttl) (now (world st2))); [lia|].
Qed.

(** After a successful resolution, a later call for the same organization
    and scope that comes more than [ttl] after the write is not answered by
    the cache: the resolver of the prefix is called again and the call hands
    back what it returns this time. *)
Theorem mutator_second_call_after_ttl st orgID ctx scope resolver
    (scopes : list string) (w : World) (st2 : lstate) (ctx2 : ctxT) :
  cached now st orgID scope = None →
  attributeResolvers (resolvers st) !! ScopePrefix scope = Some resolver →
  Resolve resolver ctx orgID scope (world st) = ((scopes, None), w) →
  resolvers st2 = resolvers (lmutator orgID ctx scope st).2 →
  now w + ttl < now (world st2) →
  ∃ st3,
    lmutator orgID ctx2 scope st2
    = (outcome_of scope (Resolve resolver ctx2 orgID scope (world st2)).1, st3)
    ∧ world st3 = (Resolve resolver ctx2 orgID scope (world st2)).2
    ∧ ∃ evs, trace st3 = trace st2 ++ EvResolve (ScopePrefix scope) orgID scope :: evs.
Proof.
  intros Hmiss Hfound Hres Hsame Hlate.
  apply mutator_miss_found.
  - unfold cached. rewrite Hsame.
    rewrite (mutator_success_registry _ _ _ _ _ _ _ Hmiss Hfound Hres). simpl.
    unfold localcache.Get, localcache.Set_; simpl. rewrite lookup_insert_eq.
    unfold localcache.Expired; simpl.
    by destruct (Z.ltb_spec (now w + ttl) (now (world st2))); [|lia].
  - rewrite Hsame.
    by rewrite (mutator_success_registry _ _ _ _ _ _ _ Hmiss Hfound Hres).
Qed.

(** A call of the mutator keeps the cache within the time-to-live, as long
    as the clock does not run backwards while the call lasts: if before the
    call no entry expires later than [ttl] from then, then after the call
    no entry expires later than [ttl] from then. *)
Theorem mutator_keeps_cache_within_ttl st orgID ctx scope :
  cache_within_ttl now st →
  now (world st) <= now (world (lmutator orgID ctx scope st).2) →
  cache_within_ttl now (lmutator orgID ctx scope st).2.
Proof.
  unfold cache_within_ttl. intros Hinv.
  destruct (mutator_cases now ScopePrefix ErrResolverNotFound st orgID ctx scope)
    as [(scopes & _ & ->)|[(_ & _ & ->)|[(r & scopes & err & w & _ & _ & _ & ->)
        |(r & scopes & w & _ & _ & _ & ->)]]]; simpl; intros Hclock k it Hk.
  - by apply (Hinv k).
  - by apply (Hinv k).
  - specialize (Hinv k it Hk). lia.
  - destruct (decide (getScopeCacheKey orgID scope = k)) as [<-|Hne].
    + rewrite lookup_insert_eq in Hk. injection Hk as <-. simpl. lia.
    + rewrite lookup_insert_ne in Hk by done. specialize (Hinv k it Hk). lia.
Qed.

(** Staleness is bounded: in a cache kept within the time-to-live, no key
    is answered any more once the clock is more than [ttl] past the instant
    of the state, whatever was stored. *)
Lemma cache_within_ttl_bounds_staleness st orgID scope (t : Z) :
  cache_within_ttl now st →
  now (world st) + ttl < t →
  localcache.Get (cache (resolvers st)) (getScopeCacheKey orgID scope) t = None.
Proof.
  unfold cache_within_ttl, localcache.Get. intros Hinv Hlate.
  destruct (localcache.items (cache (resolvers st)) !! getScopeCacheKey orgID scope)
    as [it|] eqn:Hk; [|done].
  specialize (Hinv _ _ Hk). unfold localcache.Expired.
  by destruct (Z.ltb_spec (localcache.Expiration it) t); [|lia].
Qed.

(** The registry that [NewResolvers] builds resolves nothing yet: at every
    instant and for every organization and scope the mutator fails with
    [ErrResolverNotFound] and changes nothing, the action expansion gives
    back the action alone, and the empty cache is within the time-to-live. *)
Theorem NewResolvers_is_empty (l : Logger) (w : World) (t : list event)
    orgID ctx scope (action : string) :
  let st : lstate := mkState (NewResolvers l) w t in
  lmutator orgID ctx scope st = (([], Some ErrResolverNotFound), st)
  ∧ GetActionSetResolver ctx action st = ([action], st)
  ∧ cache_within_ttl now st.
Proof.
  intros st. split; [|split].
  - rewrite mutator_miss; [done|]. unfold cached, localcache.Get. simpl.
    by rewrite lookup_empty.
  - by apply GetActionSetResolver_none.
  - intros k it Hk. simpl in Hk. by rewrite lookup_empty in Hk.
Qed.

(** Registering a resolver does not drop what the cache holds: scopes that
    the cache answers before [AddScopeAttributeResolver] are still the
    answer after it, also for the prefix that was just registered, whose new
    resolver is not called. *)
Theorem AddScopeAttributeResolver_keeps_cached_scopes st orgID ctx scope resolver
    (prefix : string) (scopes : list string) :
  cached now st orgID scope = Some scopes →
  let st1 := (AddScopeAttributeResolver prefix resolver st).2 in
  lmutator orgID ctx scope st1
  = ((scopes, None),
     mkState (resolvers st1) (world st)
       (trace st1 ++ [used_cache_line st scope scopes])).
Proof.
  intros Hc st1. by rewrite (mutator_hit now _ _ st1 orgID ctx scope scopes).
Qed.

End CacheLifetime.

(** ** How the operations of the registry compose *)

Section Registry.

Context {ctxT Logger Permission World : Type}.
Variable now : World → Z.
Variable ScopePrefix : string → string.
Variable ErrResolverNotFound : error.

Abbreviation rstate := (@state ctxT Logger Permission World).
Abbreviation rmutator :=
  (GetScopeAttributeMutator now ScopePrefix ErrResolverNotFound).

Implicit Types (st : rstate) (orgID : Z) (ctx : ctxT) (scope action : string).

(** What the mutator returns and what it does to the world depend on the
    cache, the registered resolvers and the world only. *)
Lemma mutator_depends_on st1 st2 orgID ctx scope :
  cache (resolvers st1) = cache (resolvers st2) →
  attributeResolvers (resolvers st1) = attributeResolvers (resolvers st2) →
  world st1 = world st2 →
  (rmutator orgID ctx scope st1).1 = (rmutator orgID ctx scope st2).1
  ∧ world (rmutator orgID ctx scope st1).2 = world (rmutator orgID ctx scope st2).2
  ∧ cache (resolvers (rmutator orgID ctx scope st1).2)
    = cache (resolvers (rmutator orgID ctx scope st2).2).
Proof.
  intros Hcache Hattr Hworld.
  assert (cached now st1 orgID scope = cached now st2 orgID scope) as Hc.
  { unfold cached. by rewrite Hcache, Hworld. }
  destruct (cached now st2 orgID scope) as [scopes|] eqn:Hc2.
  - by rewrite (mutator_hit _ _ _ st1 _ _ _ _ Hc), (mutator_hit _ _ _ st2 _ _ _ _ Hc2).
  - rewrite (mutator_miss _ _ _ st1 _ _ _ Hc), (mutator_miss _ _ _ st2 _ _ _ Hc2).
    rewrite Hattr, Hworld.
    destruct (attributeResolvers (resolvers st2) !! ScopePrefix scope)
      as [resolver|]; [|done].
    destruct (Resolve resolver ctx orgID scope (world st2)) as [[scopes [err|]] w];
      simpl; [done|]. by rewrite Hcache.
Qed.

(** [SetActionResolver] replaces whatever action resolver was installed and
    touches nothing else: installing [r0] and then [r] gives the state that
    installing [r] alone gives, no debug line is written, and the resolvers
    of scopes, the cache and the world are kept.  The action expansion then
    follows [r]: with [r] nil it gives back the action alone, otherwise
    the actions of [r] followed by the action. *)
Theorem SetActionResolver_replaces st (r0 r : option (@ActionResolver Permission World))
    ctx action :
  let st' := (SetActionResolver r st).2 in
  (SetActionResolver r0;; SetActionResolver r) st = (tt, st')
  ∧ attributeResolvers (resolvers st') = attributeResolvers (resolvers st)
  ∧ cache (resolvers st') = cache (resolvers st)
  ∧ world st' = world st
  ∧ trace st' = trace st
  ∧ (GetActionSetResolver ctx action st').1
    = match r with
      | None => [action]
      | Some resolver => (ResolveAction resolver action (world st)).1 ++ [action]
      end.
Proof.
  intros st'. repeat (split; [done|]).
  destruct r as [resolver|].
  - rewrite (GetActionSetResolver_some st' ctx action resolver) by done.
    subst st'; simpl. by destruct (ResolveAction resolver action (world st)).
  - by rewrite GetActionSetResolver_none.
Qed.

(** Scope resolution does not look at the action resolver: installing or
    removing one changes neither what the mutator returns, nor what it does
    to the world, nor what it writes to the cache. *)
Theorem SetActionResolver_keeps_scope_resolution st
    (r : option (@ActionResolver Permission World)) orgID ctx scope :
  let st' := (SetActionResolver r st).2 in
  (rmutator orgID ctx scope st').1 = (rmutator orgID ctx scope st).1
  ∧ world (rmutator orgID ctx scope st').2 = world (rmutator orgID ctx scope st).2
  ∧ cache (resolvers (rmutator orgID ctx scope st').2)
    = cache (resolvers (rmutator orgID ctx scope st).2).
Proof. intros st'. by apply mutator_depends_on. Qed.

(** Registrations under two different prefixes do not interfere: made in
    either order they leave the same registry, in which each prefix has the
    resolver registered for it; the cache and the world are not touched. *)
Theorem AddScopeAttributeResolver_commutes st (p1 p2 : string)
    (r1 r2 : @ScopeAttributeResolver ctxT World) :
  p1 ≠ p2 →
  let st12 := ((AddScopeAttributeResolver p1 r1;; AddScopeAttributeResolver p2 r2) st).2 in
  let st21 := ((AddScopeAttributeResolver p2 r2;; AddScopeAttributeResolver p1 r1) st).2 in
  resolvers st12 = resolvers st21
  ∧ attributeResolvers (resolvers st12) !! p1 = Some r1
  ∧ attributeResolvers (resolvers st12) !! p2 = Some r2
  ∧ cache (resolvers st12) = cache (resolvers st)
  ∧ world st12 = world st.
Proof.
  intros Hne st12 st21. subst st12 st21. simpl.
  split; [by rewrite insert_insert_ne by done|].
  split; [by rewrite lookup_insert_ne, lookup_insert_eq by done|].
  split; [apply lookup_insert_eq|done].
Qed.

(** A registration reaches the scopes of its prefix only: for a scope of
    any other prefix the mutator returns the same result, does the same to
    the world and writes the same to the cache as before the registration;
    and the registration writes exactly one debug line. *)
Theorem AddScopeAttributeResolver_other_prefix st (prefix : string)
    (r : @ScopeAttributeResolver ctxT World) orgID ctx scope :
  ScopePrefix scope ≠ prefix →
  let st' := (AddScopeAttributeResolver prefix r st).2 in
  (rmutator orgID ctx scope st').1 = (rmutator orgID ctx scope st).1
  ∧ world (rmutator orgID ctx scope st').2 = world (rmutator orgID ctx scope st).2
  ∧ cache (resolvers (rmutator orgID ctx scope st').2)
    = cache (resolvers (rmutator orgID ctx scope st).2)
  ∧ trace st'
    = trace st ++ [EvDebug (log (resolvers st)) "Adding scope attribute resolver"
                     [("prefix", LogString prefix)]].
Proof.
  intros Hne st'. split; [|split; [|split]]; [| | |done].
  all: destruct (cached now st orgID scope) as [scopes|] eqn:Hc.
  all: try (rewrite (mutator_hit now _ _ st' _ _ _ scopes),
              (mutator_hit now _ _ st _ _ _ scopes) by done; done).
  all: rewrite (mutator_miss now _ _ st'), (mutator_miss now _ _ st) by done.
  all: subst st'; simpl; rewrite lookup_insert_ne by done.
  all: destruct (attributeResolvers (resolvers st) !! ScopePrefix scope)
         as [resolver|]; [|done].
  all: by destruct (Resolve resolver ctx orgID scope (world st)) as [[scopes [err|]] w].
Qed.

(** Whether or not an action resolver is installed, the action expansion
    returns a sequence that ends with the action, keeps the registry and its
    cache as they are, and neither calls a resolver of scopes nor writes to
    the cache. *)
Theorem GetActionSetResolver_frame st ctx action :
  ∃ evs,
    last (GetActionSetResolver ctx action st).1 = Some action
    ∧ resolvers (GetActionSetResolver ctx action st).2 = resolvers st
    ∧ trace (GetActionSetResolver ctx action st).2 = trace st ++ evs
    ∧ List.filter is_Resolve evs = []
    ∧ List.filter is_CacheSet evs = [].
Proof.
  destruct (actionResolver (resolvers st)) as [resolver|] eqn:Hr.
  - rewrite (GetActionSetResolver_some _ _ _ _ Hr).
    destruct (ResolveAction resolver action (world st)) as [members w]; simpl.
    eexists. split; [apply last_snoc|]. by repeat split.
  - rewrite (GetActionSetResolver_none _ _ _ Hr). simpl.
    exists []. split; [done|]. split; [done|]. by rewrite app_nil_r.
Qed.

(** Scope resolution and action expansion share nothing but the world:
    registering a resolver of scopes changes nothing of what the action
    expansion returns. *)
Theorem AddScopeAttributeResolver_keeps_action_expansion st (prefix : string)
    (r : @ScopeAttributeResolver ctxT World) ctx action :
  (GetActionSetResolver ctx action (AddScopeAttributeResolver prefix r st).2).1
  = (GetActionSetResolver ctx action st).1.
Proof.
  destruct (actionResolver (resolvers st)) as [resolver|] eqn:Hr.
  - rewrite (GetActionSetResolver_some (AddScopeAttributeResolver prefix r st).2
               ctx action resolver), (GetActionSetResolver_some st ctx action resolver)
      by done.
    simpl. by destruct (ResolveAction resolver action (world st)).
  - by rewrite !GetActionSetResolver_none.
Qed.

(** Register, then resolve: after a function was registered for a prefix
    through the adapter [ScopeAttributeResolverFunc], a scope of that prefix
    that the cache does not answer is resolved by calling that function with
    the context, the organization id and the scope of the call; its scopes
    are handed back, or its error wrapped. *)
Theorem AddScopeAttributeResolver_then_resolve st (prefix : string)
    (f : ctxT → Z → string → World → (list string * option error) * World)
    orgID ctx scope :
  ScopePrefix scope = prefix →
  cached now st orgID scope = None →
  ∃ st',
    (AddScopeAttributeResolver prefix (ScopeAttributeResolverFunc f);;
     rmutator orgID ctx scope) st
    = (outcome_of scope (f ctx orgID scope (world st)).1, st')
    ∧ world st' = (f ctx orgID scope (world st)).2
    ∧ attributeResolvers (resolvers st') !! prefix = Some (ScopeAttributeResolverFunc f).
Proof.
  intros Hprefix Hmiss.
  set (st1 := (AddScopeAttributeResolver prefix (ScopeAttributeResolverFunc f) st).2).
  change ((AddScopeAttributeResolver prefix (ScopeAttributeResolverFunc f);;
           rmutator orgID ctx scope) st)
    with (rmutator orgID ctx scope st1).
  rewrite (mutator_miss now _ _ st1) by done.
  subst st1; simpl. rewrite Hprefix, lookup_insert_eq. simpl.
  destruct (f ctx orgID scope (world st)) as [[scopes [err|]] w]; simpl;
    eexists; (split; [reflexivity|]); simpl; (split; [done|]);
    apply lookup_insert_eq.
Qed.

End Registry.

(** ** The further statements at work on the concrete registry *)

Lemma Example_registered_within_ttl (r : @ScopeAttributeResolver unit Example.World) :
  cache_within_ttl Example.now (Example.registered r).
Proof. intros k it Hk. simpl in Hk. by rewrite lookup_empty in Hk. Qed.

Lemma mutator_other_organization_witness :
  localcache.Get (cache (resolvers Example.warm))
    (getScopeCacheKey 8 "dashboards:id:1") 6
  = localcache.Get (cache (resolvers (Example.registered Example.dashboards)))
      (getScopeCacheKey 8 "dashboards:id:1") 6.
Proof.
  apply (mutator_other_organization Example.now Example.ScopePrefix
           Example.ErrResolverNotFound (Example.registered Example.dashboards)
           7 tt "dashboards:id:1" 8 6).
  lia.
Defined.

Lemma mutator_error_shape_witness :
  cached Example.now (Example.registered Example.failing) 7 "dashboards:id:1" = None
  ∧ resolvers (Example.mutator 7 tt "dashboards:id:1"
                 (Example.registered Example.failing)).2
    = resolvers (Example.registered Example.failing).
Proof.
  destruct (mutator_error_shape Example.now Example.ScopePrefix
              Example.ErrResolverNotFound (Example.registered Example.failing)
              7 tt "dashboards:id:1" []
              (could_not_resolve "dashboards:id:1" (errorString "dashboard not found")))
    as (_ & Hmiss & Hsame & _).
  - vm_compute. reflexivity.
  - split; [exact Hmiss|exact Hsame].
Defined.

Lemma mutator_second_call_within_ttl_witness :
  Example.mutator 7 tt "dashboards:id:1" (mkState (resolvers Example.warm) (6 + ttl) [])
  = ((["dashboards:uid:abc"; "folders:uid:xyz"], None),
     mkState (resolvers Example.warm) (6 + ttl)
       [used_cache_line Example.warm "dashboards:id:1"
          ["dashboards:uid:abc"; "folders:uid:xyz"]]).
Proof.
  apply (mutator_second_call_within_ttl Example.now Example.ScopePrefix
           Example.ErrResolverNotFound (Example.registered Example.dashboards)
           7 tt "dashboards:id:1" Example.dashboards
           ["dashboards:uid:abc"; "folders:uid:xyz"] 6
           (mkState (resolvers Example.warm) (6 + ttl) []) tt).
  - vm_compute. reflexivity.
  - vm_compute. reflexivity.
  - vm_compute. reflexivity.
  - reflexivity.
  - vm_compute. discriminate.
Defined.

Lemma mutator_second_call_after_ttl_witness :
  ∃ st3,
    Example.mutator 7 tt "dashboards:id:1"
      (mkState (resolvers Example.warm) (6 + ttl + 1) [])
    = ((["dashboards:uid:abc"; "folders:uid:xyz"], None), st3)
    ∧ world st3 = 6 + ttl + 2.
Proof.
  destruct (mutator_second_call_after_ttl Example.now Example.ScopePrefix
              Example.ErrResolverNotFound (Example.registered Example.dashboards)
              7 tt "dashboards:id:1" Example.dashboards
              ["dashboards:uid:abc"; "folders:uid:xyz"] 6
              (mkState (resolvers Example.warm) (6 + ttl + 1) []) tt)
    as (st3 & Hrun & Hworld & _).
  - vm_compute. reflexivity.
  - vm_compute. reflexivity.
  - vm_compute. reflexivity.
  - reflexivity.
  - vm_compute. reflexivity.
  - exists st3. split; [exact Hrun|]. rewrite Hworld. vm_compute. reflexivity.
Defined.

Lemma mutator_keeps_cache_within_ttl_witness :
  cache_within_ttl Example.now Example.warm.
Proof.
  apply (mutator_keeps_cache_within_ttl Example.now Example.ScopePrefix
           Example.ErrResolverNotFound (Example.registered Example.dashboards)
           7 tt "dashboards:id:1").
  - apply Example_registered_within_ttl.
  - vm_compute. discriminate.
Defined.

Lemma AddScopeAttributeResolver_keeps_cached_scopes_witness :
  (Example.mutator 7 tt "dashboards:id:1"
     (AddScopeAttributeResolver "dashboards:id:" Example.other Example.warm).2).1
  = (["dashboards:uid:abc"; "folders:uid:xyz"], None).
Proof.
  unfold Example.mutator.
  rewrite (AddScopeAttributeResolver_keeps_cached_scopes Example.now
             Example.ScopePrefix Example.ErrResolverNotFound Example.warm 7 tt
             "dashboards:id:1" Example.other "dashboards:id:"
             ["dashboards:uid:abc"; "folders:uid:xyz"]).
  - reflexivity.
  - vm_compute. reflexivity.
Defined.

Lemma AddScopeAttributeResolver_commutes_witness :
  resolvers ((AddScopeAttributeResolver "dashboards:id:" Example.dashboards;;
              AddScopeAttributeResolver "folders:id:" Example.other) Example.empty).2
  = resolvers ((AddScopeAttributeResolver "folders:id:" Example.other;;
                AddScopeAttributeResolver "dashboards:id:" Example.dashboards)
                 Example.empty).2.
Proof.
  apply (AddScopeAttributeResolver_commutes Example.empty "dashboards:id:"
           "folders:id:" Example.dashboards Example.other).
  discriminate.
Defined.

Lemma AddScopeAttributeResolver_other_prefix_witness :
  (Example.mutator 7 tt "dashboards:id:1"
     (AddScopeAttributeResolver "folders:id:" Example.other
        (Example.registered Example.dashboards)).2).1
  = (Example.mutator 7 tt "dashboards:id:1" (Example.registered Example.dashboards)).1.
Proof.
  apply (AddScopeAttributeResolver_other_prefix Example.now Example.ScopePrefix
           Example.ErrResolverNotFound (Example.registered Example.dashboards)
           "folders:id:" Example.other 7 tt "dashboards:id:1").
  vm_compute. discriminate.
Defined.

Lemma AddScopeAttributeResolver_then_resolve_witness :
  ∃ st',
    (AddScopeAttributeResolver "dashboards:id:"
       (ScopeAttributeResolverFunc
          (λ (_ : unit) (orgID : Z) (scope : string) (w : Example.World),
             (([scope +:+ "/org/" +:+ formatInt64 orgID], None), w + 1)));;
     Example.mutator 7 tt "dashboards:id:1") Example.empty
    = ((["dashboards:id:1/org/7"], None), st')
    ∧ world st' = 6.
Proof.
  destruct (AddScopeAttributeResolver_then_resolve Example.now Example.ScopePrefix
              Example.ErrResolverNotFound Example.empty "dashboards:id:"
              (λ (_ : unit) (orgID : Z) (scope : string) (w : Example.World),
                 (([scope +:+ "/org/" +:+ formatInt64 orgID], None), w + 1))
              7 tt "dashboards:id:1")
    as (st' & Hrun & Hworld & _).
  - reflexivity.
  - vm_compute. reflexivity.
  - exists st'. split; [exact Hrun|exact Hworld].
Defined.
